(** * Serverless operator: route translation and defaulting, verified

    A shallow embedding of the package [resources] of the ingress reconciler
    (the functions [MakeRoutes], [makeRoute], [routeName] and [hashHost]) and
    of the ingress and monitoring defaulting rules of the Knative Serving
    extension, followed by the properties stated about them.

    Go values are modelled as follows.
    - A Go [string] is a sequence of bytes: Rocq's [string] (a list of 8-bit
      [ascii]).
    - A [map[string]string] is a reference in Go.  The annotation map of an
      ingress is shared with every route built from it, so maps that are
      written to live in a store ([heap]) and are named by a location.
    - A function returning [(value, error)] returns a pair of options.
    - Loops with an early [return] are fixpoints over the ranged slice whose
      result says whether the loop fell through or returned. *)

From Stdlib Require Import ZArith String Ascii List Lia.
From stdpp Require Import base option list gmap strings pretty.

Local Open Scope string_scope.
Local Open Scope list_scope.
Local Open Scope Z_scope.

(** ** The pieces of the Go standard library that the package calls *)

Module GoStrings.

(** [strings.Split(s, sep)] for a one-byte separator: the substrings between
    the separators, [n+1] of them when [sep] occurs [n] times. *)
Fixpoint Split (s : string) (sep : ascii) : list string :=
  match s with
  | EmptyString => [EmptyString]
  | String c rest =>
      if Ascii.eqb c sep then EmptyString :: Split rest sep
      else match Split rest sep with
           | [] => [String c EmptyString]
           | p :: ps => String c p :: ps
           end
  end.

(** [s[i]] on a slice of strings, for an index the caller has checked. *)
Definition index (parts : list string) (i : nat) : string :=
  nth i parts EmptyString.

Definition bytes (s : string) : list Z :=
  map (fun c => Z.of_N (N_of_ascii c)) (list_ascii_of_string s).

Definition is_upper (c : ascii) : bool :=
  let n := N_of_ascii c in ((65 <=? n) && (n <=? 90))%N.

Definition lower_byte (c : ascii) : ascii :=
  if is_upper c then ascii_of_N (N_of_ascii c + 32) else c.

Fixpoint isASCII (s : string) : bool :=
  match s with
  | EmptyString => true
  | String c rest => (N_of_ascii c <? 128)%N && isASCII rest
  end.

Fixpoint map_bytes (f : ascii -> ascii) (s : string) : string :=
  match s with
  | EmptyString => EmptyString
  | String c rest => String (f c) (map_bytes f rest)
  end.

(** [strings.ToLower]: a string of ASCII bytes has its upper-case letters
    replaced; any other string goes through [strings.Map(unicode.ToLower, s)],
    whose case tables are left to the parameter [unicode_lower]. *)
Definition ToLower (unicode_lower : string -> string) (s : string) : string :=
  if isASCII s then map_bytes lower_byte s else unicode_lower s.

Definition hex_digit (d : Z) : ascii :=
  if d <? 10 then ascii_of_N (Z.to_N (48 + d)) else ascii_of_N (Z.to_N (87 + d)).

(** The verb [%x] applied to a byte slice, a byte array or a string: two
    lower-case hexadecimal digits per byte. *)
Fixpoint hex (bs : list Z) : string :=
  match bs with
  | [] => EmptyString
  | b :: rest => String (hex_digit (Z.shiftr b 4)) (String (hex_digit (Z.land b 15)) (hex rest))
  end.

(** [s[lo:hi]] for [lo <= hi <= len(s)]. *)
Definition slice (s : string) (lo hi : nat) : string := substring lo (hi - lo) s.

End GoStrings.

(** [crypto/sha256], following the generic block function of the Go
    implementation on [uint32] words held in [Z]. *)
Module Sha256.

Definition u32 (x : Z) : Z := x mod 2 ^ 32.

(** [bits.RotateLeft32(x, -k)] *)
Definition rotr (x k : Z) : Z :=
  Z.lor (Z.shiftr x k) (u32 (Z.shiftl x (32 - k))).

Definition K : list Z := [
  0x428A2F98; 0x71374491; 0xB5C0FBCF; 0xE9B5DBA5;
  0x3956C25B; 0x59F111F1; 0x923F82A4; 0xAB1C5ED5;
  0xD807AA98; 0x12835B01; 0x243185BE; 0x550C7DC3;
  0x72BE5D74; 0x80DEB1FE; 0x9BDC06A7; 0xC19BF174;
  0xE49B69C1; 0xEFBE4786; 0x0FC19DC6; 0x240CA1CC;
  0x2DE92C6F; 0x4A7484AA; 0x5CB0A9DC; 0x76F988DA;
  0x983E5152; 0xA831C66D; 0xB00327C8; 0xBF597FC7;
  0xC6E00BF3; 0xD5A79147; 0x06CA6351; 0x14292967;
  0x27B70A85; 0x2E1B2138; 0x4D2C6DFC; 0x53380D13;
  0x650A7354; 0x766A0ABB; 0x81C2C92E; 0x92722C85;
  0xA2BFE8A1; 0xA81A664B; 0xC24B8B70; 0xC76C51A3;
  0xD192E819; 0xD6990624; 0xF40E3585; 0x106AA070;
  0x19A4C116; 0x1E376C08; 0x2748774C; 0x34B0BCB5;
  0x391C0CB3; 0x4ED8AA4A; 0x5B9CCA4F; 0x682E6FF3;
  0x748F82EE; 0x78A5636F; 0x84C87814; 0x8CC70208;
  0x90BEFFFA; 0xA4506CEB; 0xBEF9A3F7; 0xC67178F2 ].

(** The digest state [h[0..7]]. *)
Record digest := mkDigest {
  h0 : Z; h1 : Z; h2 : Z; h3 : Z; h4 : Z; h5 : Z; h6 : Z; h7 : Z }.

Definition init : digest :=
  mkDigest 0x6A09E667 0xBB67AE85 0x3C6EF372 0xA54FF53A
           0x510E527F 0x9B05688C 0x1F83D9AB 0x5BE0CD19.

Definition be32 (b0 b1 b2 b3 : Z) : Z :=
  Z.lor (Z.lor (Z.shiftl b0 24) (Z.shiftl b1 16)) (Z.lor (Z.shiftl b2 8) b3).

(** [w[0..15]]: the chunk read as big-endian words. *)
Fixpoint load (n : nat) (p : list Z) : list Z :=
  match n, p with
  | S n', b0 :: b1 :: b2 :: b3 :: rest => be32 b0 b1 b2 b3 :: load n' rest
  | _, _ => []
  end.

Definition at_ (w : list Z) (i : nat) : Z := nth i w 0.

(** [w[16..63]]: [n] further words appended to the [i] words computed so far. *)
Fixpoint extend (n i : nat) (w : list Z) : list Z :=
  match n with
  | O => w
  | S n' =>
      let v1 := at_ w (i - 2) in
      let t1 := Z.lxor (Z.lxor (rotr v1 17) (rotr v1 19)) (Z.shiftr v1 10) in
      let v2 := at_ w (i - 15) in
      let t2 := Z.lxor (Z.lxor (rotr v2 7) (rotr v2 18)) (Z.shiftr v2 3) in
      extend n' (S i) (w ++ [u32 (t1 + at_ w (i - 7) + t2 + at_ w (i - 16))])
  end.

(** One round of the compression loop on the working variables. *)
Definition round (s : digest) (k w : Z) : digest :=
  let '(mkDigest a b c d e f g h) := s in
  let t1 := u32 (h + Z.lxor (Z.lxor (rotr e 6) (rotr e 11)) (rotr e 25)
                   + Z.lxor (Z.land e f) (Z.land (Z.lxor e 0xFFFFFFFF) g) + k + w) in
  let t2 := u32 (Z.lxor (Z.lxor (rotr a 2) (rotr a 13)) (rotr a 22)
                 + Z.lxor (Z.lxor (Z.land a b) (Z.land a c)) (Z.land b c)) in
  mkDigest (u32 (t1 + t2)) a b c (u32 (d + t1)) e f g.

Fixpoint rounds (s : digest) (ks ws : list Z) : digest :=
  match ks, ws with
  | k :: ks', w :: ws' => rounds (round s k w) ks' ws'
  | _, _ => s
  end.

Definition block (dig : digest) (chunk : list Z) : digest :=
  let w := extend 48 16 (load 16 chunk) in
  let s := rounds dig K w in
  mkDigest (u32 (h0 dig + h0 s)) (u32 (h1 dig + h1 s)) (u32 (h2 dig + h2 s))
           (u32 (h3 dig + h3 s)) (u32 (h4 dig + h4 s)) (u32 (h5 dig + h5 s))
           (u32 (h6 dig + h6 s)) (u32 (h7 dig + h7 s)).

(** [for len(p) >= chunk { ...; p = p[chunk:] }], run [n] times. *)
Fixpoint blocks (n : nat) (dig : digest) (p : list Z) : digest :=
  match n with
  | O => dig
  | S n' => blocks n' (block dig (firstn 64 p)) (skipn 64 p)
  end.

Definition blockGeneric (dig : digest) (p : list Z) : digest :=
  blocks (Nat.div (length p) 64) dig p.

Definition put_be (width : nat) (x : Z) : list Z :=
  map (fun i => Z.land (Z.shiftr x (8 * Z.of_nat (width - 1 - i))) 255) (seq 0 width).

(** The padding written by [checkSum]: [0x80], zeros up to 56 modulo 64,
    then the length in bits as a big-endian [uint64]. *)
Definition padding (len : nat) : list Z :=
  let r := Nat.modulo len 64 in
  let zeros := if Nat.ltb r 56 then (55 - r)%nat else (119 - r)%nat in
  (128 :: repeat 0 zeros) ++ put_be 8 (Z.of_nat len * 8).

Definition Sum256 (data : list Z) : list Z :=
  let d := blockGeneric init (data ++ padding (length data)) in
  put_be 4 (h0 d) ++ put_be 4 (h1 d) ++ put_be 4 (h2 d) ++ put_be 4 (h3 d) ++
  put_be 4 (h4 d) ++ put_be 4 (h5 d) ++ put_be 4 (h6 d) ++ put_be 4 (h7 d).

End Sha256.

(** ** The API types read and built by the package *)

(** Constants and tables of the vendored packages ([knative.dev/networking],
    [knative.dev/serving], [unicode]) that the package refers to by name. *)
Class Vendored := {
  (** [strings.Map(unicode.ToLower, s)] on a string with a non-ASCII byte *)
  unicode_lower : string -> string;
  (** [networking.HTTPOptionAnnotationKey] *)
  HTTPOptionAnnotationKey : string;
  (** [networking.IngressLabelKey] *)
  IngressLabelKey : string;
  (** [networkingv1alpha1.IngressVisibilityClusterLocal] *)
  IngressVisibilityClusterLocal : string;
  (** [networkingv1alpha1.HTTPOptionRedirected] *)
  HTTPOptionRedirected : string;
  (** [config.DefaultMaxRevisionTimeoutSeconds] *)
  DefaultMaxRevisionTimeoutSeconds : Z;
}.

(** A location of the store of maps. *)
Abbreviation loc := nat.

(** [metav1.ObjectMeta].  [Annotations] is the map reference ([None] is the
    nil map); [Labels] is only ever read or freshly built, so it is a value. *)
Record ObjectMeta := {
  Name : string;
  Namespace : string;
  UID : string;
  Labels : gmap string string;
  Annotations : option loc;
}.

Record LoadBalancerIngressStatus := {
  IP : string;
  Domain : string;
  DomainInternal : string;
  MeshOnly : bool;
}.

Record LoadBalancerStatus := { LBIngress : list LoadBalancerIngressStatus }.

Record IngressStatus := {
  PublicLoadBalancer : option LoadBalancerStatus;
  PrivateLoadBalancer : option LoadBalancerStatus;
}.

Record IngressTLS := {
  TLSHosts : list string;
  SecretName : string;
  SecretNamespace : string;
}.

(** [IngressRule]; the HTTP paths of a rule are not read by the package. *)
Record IngressRule := {
  Hosts : list string;
  Visibility : string;
}.

Record IngressSpec := {
  TLS : list IngressTLS;
  Rules : list IngressRule;
  HTTPOption : string;
}.

Record Ingress := {
  IngressMeta : ObjectMeta;
  Spec : IngressSpec;
  Status : IngressStatus;
}.

Inductive TLSTerminationType :=
  | TLSTerminationEdge | TLSTerminationPassthrough | TLSTerminationReencrypt.

Inductive InsecureEdgeTerminationPolicyType :=
  | InsecureEdgeTerminationPolicyNone
  | InsecureEdgeTerminationPolicyAllow
  | InsecureEdgeTerminationPolicyRedirect.

Inductive WildcardPolicyType := WildcardPolicyNone | WildcardPolicySubdomain.

Inductive IntOrString := FromInt (i : Z) | FromString (s : string).

Record RoutePort := { TargetPort : IntOrString }.

Record RouteTargetReference := {
  Kind : string;
  ToName : string;
  Weight : option Z;
}.

Record TLSConfig := {
  Termination : TLSTerminationType;
  InsecureEdgeTerminationPolicy : InsecureEdgeTerminationPolicyType;
}.

Record RouteSpec := {
  Host : string;
  Port : option RoutePort;
  To : RouteTargetReference;
  RouteTLS : option TLSConfig;
  WildcardPolicy : WildcardPolicyType;
}.

Record Route := {
  RouteMeta : ObjectMeta;
  RouteSpec_ : RouteSpec;
}.

(** A Go [error]: the package's sentinel, or the value of [fmt.Errorf] on a
    format string without further arguments. *)
Inductive error :=
  | ErrNoValidLoadbalancerDomain
  | Errorf (format : string).

(** ** The store of maps and the computations over it *)

Abbreviation heap := (list (gmap string string)).

Definition M (A : Type) : Type := heap -> A * heap.

#[global] Instance M_ret : MRet M := fun A (a : A) h => (a, h).

#[global] Instance M_bind : MBind M :=
  fun A B (k : A -> M B) (m : M A) h => let (a, h') := m h in k a h'.

(** The map a reference points to. *)
Definition deref (h : heap) (l : loc) : gmap string string := default ∅ (h !! l).

(** [make(map[string]string)] *)
Definition make_map : M loc := fun h => (length h, h ++ [∅]).

(** The map behind [l], for the reads [m[k]] and [_, ok := m[k]]. *)
Definition load_map (l : loc) : M (gmap string string) := fun h => (deref h l, h).

(** [m[k] = v] *)
Definition store_key (l : loc) (k v : string) : M unit :=
  fun h => (tt, <[l := <[k := v]> (deref h l)]> h).

(** [m[k]]: the zero value when the key is missing. *)
Definition get (m : gmap string string) (k : string) : string := default EmptyString (m !! k).

(** [_, ok := m[k]] *)
Definition has (m : gmap string string) (k : string) : bool := bool_decide (is_Some (m !! k)).

(** [kmeta.UnionMaps(a, b)]: a fresh map, later arguments win. *)
Definition UnionMaps (a b : gmap string string) : gmap string string := b ∪ a.

(** ** Package [resources] *)

Module Resources.

Import GoStrings.

Definition TimeoutAnnotation := "haproxy.router.openshift.io/timeout".
Definition DisableRouteAnnotation := "serving.knative.openshift.io/disableRoute".
Definition EnablePassthroughRouteAnnotation := "serving.knative.openshift.io/enablePassthrough".

Definition HTTPPort := "http2".
Definition HTTPSPort := "https".

Definition OpenShiftIngressLabelKey := "serving.knative.openshift.io/ingressName".
Definition OpenShiftIngressNamespaceLabelKey := "serving.knative.openshift.io/ingressNamespace".

(** [fmt.Sprintf("%x", sha256.Sum256([]byte(host)))[0:6]] *)
Definition hashHost (host : string) : string :=
  slice (hex (Sha256.Sum256 (bytes host))) 0 6.

(** [fmt.Sprintf("route-%s-%x", uid, hashHost(host))]: the verb [%x] is
    applied to the string that [hashHost] returns. *)
Definition routeName (uid host : string) : string :=
  "route-" +:+ uid +:+ "-" +:+ hex (bytes (hashHost host)).

Section WithVendored.
Context `{V : Vendored}.

(** [fmt.Sprintf("%vs", config.DefaultMaxRevisionTimeoutSeconds)] *)
Definition DefaultTimeout : string :=
  pretty DefaultMaxRevisionTimeoutSeconds +:+ "s".

(** The body of the loop over [ci.Status.PublicLoadBalancer.Ingress],
    on the variables [serviceName] and [namespace]. *)
Definition lbStep (acc : string * string) (lbIngress : LoadBalancerIngressStatus)
  : string * string :=
  if decide (DomainInternal lbIngress <> "") then
    let parts := Split (DomainInternal lbIngress) "." in
    if decide ((2 < List.length parts)%nat /\ index parts 2 = "svc")
    then (index parts 0, index parts 1)
    else acc
  else acc.

(** [serviceName] and [namespace] after the loop of [makeRoute]. *)
Definition lbService (status : IngressStatus) : string * string :=
  match PublicLoadBalancer status with
  | Some lb => fold_left lbStep (LBIngress lb) ("", "")
  | None => ("", "")
  end.

(** The choice of [terminationPolicy] in [makeRoute], on the annotation
    map [annotations]: the HTTP option of the ingress, then the
    annotation that overrides it, whose [default] case returns the
    error. *)
Definition edgeTerminationPolicy (ci : Ingress) (annotations : gmap string string)
  : InsecureEdgeTerminationPolicyType + error :=
  let terminationPolicy :=
    if decide (HTTPOption (Spec ci) = HTTPOptionRedirected)
    then InsecureEdgeTerminationPolicyRedirect
    else InsecureEdgeTerminationPolicyAllow in
  (* TODO: Remove this annotation handling after serving 0.26+. *)
  if decide (get annotations HTTPOptionAnnotationKey <> "") then
    let annotation := get annotations HTTPOptionAnnotationKey in
    let lowered := ToLower unicode_lower annotation in
    if decide (lowered = "enabled") then inl InsecureEdgeTerminationPolicyAllow
    else if decide (lowered = "redirected") then inl InsecureEdgeTerminationPolicyRedirect
    else inr (Errorf ("incorrect HTTPOption annotation: " +:+ annotation))
  else inl terminationPolicy.

Definition makeRoute (ci : Ingress) (host : string) (rule : IngressRule)
  : M (option Route * option error) :=
  (* Take over annotations from ingress. *)
  annotations ← match Annotations (IngressMeta ci) with
                | Some l => mret l
                | None => make_map
                end;
  (* Skip making route when visibility of the rule is local only. *)
  if decide (Visibility rule = IngressVisibilityClusterLocal) then mret (None, None) else
  (* Skip making route when the annotation is specified. *)
  m ← load_map annotations;
  if has m DisableRouteAnnotation then mret (None, None) else
  (* Set timeout for OpenShift Route *)
  _ ← store_key annotations TimeoutAnnotation DefaultTimeout;
  let labels := UnionMaps (Labels (IngressMeta ci))
    (<[IngressLabelKey := Name (IngressMeta ci)]>
       (<[OpenShiftIngressLabelKey := Name (IngressMeta ci)]>
          (<[OpenShiftIngressNamespaceLabelKey := Namespace (IngressMeta ci)]> ∅))) in
  let name := routeName (UID (IngressMeta ci)) host in
  let '(serviceName, namespace) := lbService (Status ci) in
  if decide (serviceName = "" \/ namespace = "") then
    mret (None, Some ErrNoValidLoadbalancerDomain)
  else
  m ← load_map annotations;
  let policy := edgeTerminationPolicy ci m in
  match policy with
  | inr err => mret (None, Some err)
  | inl terminationPolicy =>
      let route := {|
        RouteMeta := {|
          Name := name;
          Namespace := namespace;
          UID := "";
          Labels := labels;
          Annotations := Some annotations |};
        RouteSpec_ := {|
          Host := host;
          Port := Some {| TargetPort := FromString HTTPPort |};
          To := {| Kind := "Service"; ToName := serviceName; Weight := Some 100 |};
          RouteTLS := Some {| Termination := TLSTerminationEdge;
                              InsecureEdgeTerminationPolicy := terminationPolicy |};
          WildcardPolicy := WildcardPolicyNone |} |} in
      (* Target the HTTPS port and configure passthrough when the
         passthrough annotation is set or ingress.spec.tls is set. *)
      m ← load_map annotations;
      if has m EnablePassthroughRouteAnnotation || (0 <? List.length (TLS (Spec ci)))%nat then
        mret (Some {|
          RouteMeta := RouteMeta route;
          RouteSpec_ := {|
            Host := Host (RouteSpec_ route);
            Port := Some {| TargetPort := FromString HTTPSPort |};
            To := To (RouteSpec_ route);
            RouteTLS := Some {| Termination := TLSTerminationPassthrough;
                                InsecureEdgeTerminationPolicy :=
                                  InsecureEdgeTerminationPolicyRedirect |};
            WildcardPolicy := WildcardPolicy (RouteSpec_ route) |} |}, None)
      else mret (Some route, None)
  end.

(** The test of [MakeRoutes] on the labels of a host. *)
Definition routable (host : string) : bool :=
  let parts := Split host "." in
  bool_decide (List.length parts = 2%nat)
  || (bool_decide (2 < List.length parts)%nat && bool_decide (index parts 2 <> "svc")).

(** [for _, host := range rule.Hosts]: [inl routes] when the loop falls
    through, [inr err] at [return nil, err]. *)
Fixpoint rangeHosts (ci : Ingress) (rule : IngressRule) (hosts : list string)
  (routes : list Route) : M (list Route + error) :=
  match hosts with
  | [] => mret (inl routes)
  | host :: rest =>
      (* Ignore domains like myksvc.myproject.svc.cluster.local *)
      if routable host then
        '(route, err) ← makeRoute ci host rule;
        match err with
        | Some e => mret (inr e)
        | None =>
            match route with
            | None => rangeHosts ci rule rest routes
            | Some r => rangeHosts ci rule rest (routes ++ [r])
            end
        end
      else rangeHosts ci rule rest routes
  end.

(** [for _, rule := range ci.Spec.Rules] *)
Fixpoint rangeRules (ci : Ingress) (rules : list IngressRule) (routes : list Route)
  : M (list Route + error) :=
  match rules with
  | [] => mret (inl routes)
  | rule :: rest =>
      (* Skip route creation for cluster-local visibility. *)
      if decide (Visibility rule = IngressVisibilityClusterLocal) then
        rangeRules ci rest routes
      else
        r ← rangeHosts ci rule (Hosts rule) routes;
        match r with
        | inr e => mret (inr e)
        | inl routes' => rangeRules ci rest routes'
        end
  end.

(** [MakeRoutes] creates OpenShift Routes from a Knative Ingress.  The
    slice is [None] for [nil]. *)
Definition MakeRoutes (ci : Ingress) : M (option (list Route) * option error) :=
  r ← rangeRules ci (Rules (Spec ci)) [];
  match r with
  | inr err => mret (None, Some err)
  | inl routes => mret (Some routes, None)
  end.

End WithVendored.

End Resources.

(** ** Vocabulary of the statements about [MakeRoutes] *)

Module RouteTranslator.

Import GoStrings Resources.

Section WithVendored.
Context `{V : Vendored}.

(** The annotation map that [makeRoute] works on: the map of the ingress,
    or a new empty map when the ingress has none. *)
Definition seen (ci : Ingress) (h : heap) : gmap string string :=
  match Annotations (IngressMeta ci) with
  | Some l => deref h l
  | None => ∅
  end.

(** Two stores in which the ingress has the same annotations, the timeout
    annotation apart. *)
Definition agree (ci : Ingress) (h h' : heap) : Prop :=
  forall k, k <> TimeoutAnnotation -> seen ci h' !! k = seen ci h !! k.

(** What [makeRoute] does for a rule that is not cluster-local. *)
Inductive verdict := Skip | Fail (e : error) | Build.

Definition judge (ci : Ingress) (m : gmap string string) : verdict :=
  if has m DisableRouteAnnotation then Skip
  else if decide ((lbService (Status ci)).1 = "" \/ (lbService (Status ci)).2 = "")
  then Fail ErrNoValidLoadbalancerDomain
  else match edgeTerminationPolicy ci m with
       | inr e => Fail e
       | inl _ => Build
       end.

(** The passthrough triggers: the annotation, or a TLS entry in the spec. *)
Definition passthrough (ci : Ingress) (m : gmap string string) : bool :=
  has m EnablePassthroughRouteAnnotation || (0 <? List.length (TLS (Spec ci)))%nat.

(** The fields of a route that [makeRoute] builds for [host] when the
    annotation map of the ingress is [m]. *)
Definition built (ci : Ingress) (host : string) (m : gmap string string) (r : Route)
  : Prop :=
  Name (RouteMeta r) = routeName (UID (IngressMeta ci)) host
  /\ Namespace (RouteMeta r) = (lbService (Status ci)).2
  /\ ToName (To (RouteSpec_ r)) = (lbService (Status ci)).1
  /\ Host (RouteSpec_ r) = host
  /\ Port (RouteSpec_ r) =
       Some {| TargetPort := FromString (if passthrough ci m then HTTPSPort else HTTPPort) |}
  /\ RouteTLS (RouteSpec_ r) =
       Some (if passthrough ci m
             then {| Termination := TLSTerminationPassthrough;
                     InsecureEdgeTerminationPolicy := InsecureEdgeTerminationPolicyRedirect |}
             else {| Termination := TLSTerminationEdge;
                     InsecureEdgeTerminationPolicy :=
                       match edgeTerminationPolicy ci m with
                       | inl p => p
                       | inr _ => InsecureEdgeTerminationPolicyAllow
                       end |}).

(** The rule and host pairs for which [MakeRoutes] calls [makeRoute], in
    the order of the ingress. *)
Definition processedIn (rules : list IngressRule) : list (IngressRule * string) :=
  flat_map (fun rule =>
    if decide (Visibility rule = IngressVisibilityClusterLocal) then []
    else map (pair rule) (filter (fun host => routable host = true) (Hosts rule)))
    rules.

Definition processed (ci : Ingress) : list (IngressRule * string) :=
  processedIn (Rules (Spec ci)).

(** The routes appended by a loop are built, in order, for the pairs it
    processes. *)
Definition appended (ci : Ingress) (h : heap) (pairs : list (IngressRule * string))
  (new : list Route) : Prop :=
  Forall2 (fun p r => built ci p.2 (seen ci h) r) pairs new.

Definition loop_spec (ci : Ingress) (h : heap) (pairs : list (IngressRule * string))
  (routes : list Route) (res : list Route + error) : Prop :=
  match judge ci (seen ci h) with
  | Skip => res = inl routes
  | Fail e => res = match pairs with [] => inl routes | _ :: _ => inr e end
  | Build => exists new, res = inl (routes ++ new) /\ appended ci h pairs new
  end.

(** A load-balancer entry whose internal domain reads
    [service.namespace.svc...]: more than two labels, the third [svc]. *)
Definition matchingLB (lbIngress : LoadBalancerIngressStatus) : Prop :=
  (2 < List.length (Split (DomainInternal lbIngress) "."))%nat
  /\ index (Split (DomainInternal lbIngress) ".") 2 = "svc".

(** The first and second label of the internal domain of an entry. *)
Definition lbLabels (lbIngress : LoadBalancerIngressStatus) : string * string :=
  (index (Split (DomainInternal lbIngress) ".") 0,
   index (Split (DomainInternal lbIngress) ".") 1).

(** A host the route translation takes for externally routable, in the
    words of the specification: exactly two labels, or more than two
    with a third label other than [svc]. *)
Definition externally_routable (host : string) : Prop :=
  List.length (Split host ".") = 2%nat
  \/ ((2 < List.length (Split host "."))%nat /\ index (Split host ".") 2 <> "svc").

#[global] Instance externally_routable_dec host : Decision (externally_routable host).
Proof. unfold externally_routable. apply _. Defined.

(** The hosts a route is expected for: the externally routable hosts of
    the rules that are not cluster-local, in order. *)
Definition expected_hosts (ci : Ingress) : list string :=
  flat_map (fun rule =>
    if decide (Visibility rule = IngressVisibilityClusterLocal) then []
    else filter externally_routable (Hosts rule))
    (Rules (Spec ci)).

(** A route returned by some call of [makeRoute] for the ingress. *)
Definition made (ci : Ingress) (r : Route) : Prop :=
  exists host rule h0 e h1, makeRoute ci host rule h0 = ((Some r, e), h1)
    /\ Host (RouteSpec_ r) = host.

End WithVendored.

(** The route name in the words of the specification:
    ["route-" + uid + "-" + first-6-hex-chars(sha256(host))]. *)
Definition spec_routeName (uid host : string) : string :=
  "route-" +:+ uid +:+ "-" +:+ substring 0 6 (hex (Sha256.Sum256 (bytes host))).

End RouteTranslator.

(** ** The defaulting of the installation spec

    The reconciler of the Knative Serving extension is not among the source
    files (only its tests are): the ingress resolution and the monitoring
    policy below are written from the specification. *)

Module Serving.

(** Service exposure of an ingress backend: cluster-internal or externally
    load-balanced. *)
Inductive ServiceType := ClusterIP | LoadBalancer.

(** One candidate of the ingress block. *)
Record Backend := {
  Enabled : bool;
  Exposure : option ServiceType;
}.

(** The ingress block: the reference backend and the two alternatives, in
    the order they are declared. *)
Record IngressConfigs := {
  Kourier : Backend;
  Istio : Backend;
  Contour : Backend;
}.

(** The parts of the installation spec that the two rules read and write:
    the ingress block, which may be absent, and the configuration sections
    (section, then key, then value). *)
Record InstallationSpec := {
  IngressBlock : option IngressConfigs;
  Config : gmap string (gmap string string);
}.

Inductive BackendName := KourierBackend | IstioBackend | ContourBackend.

Definition unset : Backend := {| Enabled := false; Exposure := None |}.

(** The empty ingress block. *)
Definition emptyIngress : IngressConfigs :=
  {| Kourier := unset; Istio := unset; Contour := unset |}.

Definition candidates (ic : IngressConfigs) : list (BackendName * Backend) :=
  [(KourierBackend, Kourier ic); (IstioBackend, Istio ic); (ContourBackend, Contour ic)].

(** Step 1: the candidates with [enabled == true]. *)
Definition enabledNames (ic : IngressConfigs) : list BackendName :=
  map fst (filter (fun c => Enabled c.2 = true) (candidates ic)).

(** Step 2: the exposure mode is set to cluster-internal if unset. *)
Definition normalize (b : Backend) : Backend :=
  {| Enabled := Enabled b; Exposure := Some (default ClusterIP (Exposure b)) |}.

(** [Configure(section, key, value)]: the key of the section is written. *)
Definition Configure (config : gmap string (gmap string string)) (section key value : string)
  : gmap string (gmap string string) :=
  <[section := <[key := value]> (default ∅ (config !! section))]> config.

Definition configured (config : gmap string (gmap string string)) (section key : string)
  : option string :=
  config !! section ≫= fun entries => entries !! key.

Section Names.
(** The names that the specification leaves to the packages: the network
    section and its ingress-class key, the class of the mesh backend, the
    observability section and its backend key. *)
Variables (networkSection ingressClassKey istioIngressClassName : string).
Variables (ObservabilityCMName ObservabilityBackendKey : string).

(** Modelled from the spec: the ingress resolution of the reconciler
    (IngressResolver, section 4.4).  With no candidate enabled, also when
    the block is absent, the reference backend is enabled with
    cluster-internal exposure.  Otherwise the last enabled candidate in
    declaration order is the active one: its exposure defaults to
    cluster-internal, and the mesh backend also forces the ingress class and
    disables the observability backend. *)
Definition resolveIngress (spec : InstallationSpec) : InstallationSpec :=
  let ic := default emptyIngress (IngressBlock spec) in
  match last (enabledNames ic) with
  | None =>
      {| IngressBlock := Some {| Kourier := {| Enabled := true; Exposure := Some ClusterIP |};
                                 Istio := Istio ic;
                                 Contour := Contour ic |};
         Config := Config spec |}
  | Some KourierBackend =>
      {| IngressBlock := Some {| Kourier := normalize (Kourier ic);
                                 Istio := Istio ic;
                                 Contour := Contour ic |};
         Config := Config spec |}
  | Some IstioBackend =>
      {| IngressBlock := Some {| Kourier := Kourier ic;
                                 Istio := normalize (Istio ic);
                                 Contour := Contour ic |};
         Config :=
           Configure (Configure (Config spec) networkSection ingressClassKey
                        istioIngressClassName)
             ObservabilityCMName ObservabilityBackendKey "none" |}
  | Some ContourBackend =>
      {| IngressBlock := Some {| Kourier := Kourier ic;
                                 Istio := Istio ic;
                                 Contour := normalize (Contour ic) |};
         Config := Config spec |}
  end.

(** [strconv.FormatBool] *)
Definition FormatBool (b : bool) : string := if b then "true" else "false".

(** The explicit observability backend of a spec, if any. *)
Definition backend (spec : InstallationSpec) : option string :=
  configured (Config spec) ObservabilityCMName ObservabilityBackendKey.

(** Modelled from the spec: the monitoring policy of the reconciler
    (MonitoringPolicy, section 4.5), on the environment toggle ([None] when
    unset).  It returns the spec and the value of the enablement label of
    the namespace. *)
Definition monitoring (toggle : option bool) (spec : InstallationSpec)
  : InstallationSpec * string :=
  match backend spec with
  | Some value => (spec, FormatBool (negb (bool_decide (value = "none"))))
  | None =>
      match toggle with
      | Some true => (spec, FormatBool true)
      | Some false =>
          ({| IngressBlock := IngressBlock spec;
              Config := Configure (Config spec) ObservabilityCMName
                          ObservabilityBackendKey "none" |},
           FormatBool false)
      | None => (spec, FormatBool true)
      end
  end.

End Names.

End Serving.

(** ** Sample values

    The values that the vendored packages give the constants (the inputs
    below are ASCII, so the Unicode case tables are not consulted), and the
    ingresses used below to run the functions. *)

Module Scenario.

Import Resources.

Definition knative : Vendored := {|
  unicode_lower := fun s => s;
  HTTPOptionAnnotationKey := "networking.knative.dev/httpOption";
  IngressLabelKey := "networking.internal.knative.dev/ingress";
  IngressVisibilityClusterLocal := "ClusterLocal";
  HTTPOptionRedirected := "Redirected";
  DefaultMaxRevisionTimeoutSeconds := 600 |}.

Definition lbEntry (domainInternal : string) : LoadBalancerIngressStatus :=
  {| IP := ""; Domain := ""; DomainInternal := domainInternal; MeshOnly := false |}.

Definition statusOf (domains : list string) : IngressStatus :=
  {| PublicLoadBalancer := Some {| LBIngress := map lbEntry domains |};
     PrivateLoadBalancer := None |}.

Definition external (hosts : list string) : IngressRule :=
  {| Hosts := hosts; Visibility := "ExternalIP" |}.

Definition clusterLocal (hosts : list string) : IngressRule :=
  {| Hosts := hosts; Visibility := "ClusterLocal" |}.

(** An ingress named [ing] in [default] with the unique identifier [abc]. *)
Definition ingress (annotations : option loc) (tls : list IngressTLS)
  (rules : list IngressRule) (httpOption : string) (status : IngressStatus) : Ingress :=
  {| IngressMeta := {| Name := "ing"; Namespace := "default"; UID := "abc";
                       Labels := ∅; Annotations := annotations |};
     Spec := {| TLS := tls; Rules := rules; HTTPOption := httpOption |};
     Status := status |}.

Definition kourier : IngressStatus :=
  statusOf ["kourier.knative-serving-ingress.svc.cluster.local"].

Definition secret : IngressTLS :=
  {| TLSHosts := ["foo.default.example.com"]; SecretName := "cert";
     SecretNamespace := "default" |}.

(** The scenario of the specification: one external rule with the host
    [foo.default.example.com], HTTP option redirect, no annotations. *)
Definition redirected : Ingress :=
  ingress None [] [external ["foo.default.example.com"]] "Redirected" kourier.

(** The same rule on an ingress whose annotation map is at location 0. *)
Definition annotated (tls : list IngressTLS) (status : IngressStatus) : Ingress :=
  ingress (Some 0%nat) tls
    [external ["foo.default.example.com"; "foo.default.svc.cluster.local"]] "" status.

(** Two load-balancer entries with a valid internal domain. *)
Definition twoServices : IngressStatus :=
  statusOf ["first.ns1.svc.cluster.local"; "second.ns2.svc.cluster.local"].

(** The routes that [MakeRoutes] returns for an ingress on a store, and
    the store it leaves. *)
Definition routesOf (ci : Ingress) (h : heap) : list Route :=
  default [] (MakeRoutes (V := knative) ci h).1.1.

Definition errorOf (ci : Ingress) (h : heap) : option error :=
  (MakeRoutes (V := knative) ci h).1.2.

Definition storeAfter (ci : Ingress) (h : heap) : heap :=
  (MakeRoutes (V := knative) ci h).2.

End Scenario.

(** ** Properties of the route translation *)

Module RouteTranslatorProofs.

Import GoStrings Resources RouteTranslator.

Section Store.
Context `{V : Vendored}.

Lemma deref_store_ne (h : heap) (l : loc) (k0 v k : string) :
  k <> k0 -> deref (<[l := <[k0 := v]> (deref h l)]> h) l !! k = deref h l !! k.
Proof.
  intros Hne. unfold deref.
  destruct (decide (l < List.length h)%nat) as [Hlt | Hge].
  - rewrite list_lookup_insert_eq by exact Hlt. simpl.
    rewrite lookup_insert_ne by congruence. reflexivity.
  - rewrite list_insert_ge by lia. reflexivity.
Qed.

Lemma deref_fresh (h : heap) : deref (h ++ [∅]) (List.length h) = ∅.
Proof.
  unfold deref. rewrite lookup_app_r by lia.
  replace (List.length h - List.length h)%nat with 0%nat by lia. reflexivity.
Qed.

Lemma agree_refl ci h : agree ci h h.
Proof. intros k _. reflexivity. Qed.

Lemma agree_trans ci h1 h2 h3 : agree ci h1 h2 -> agree ci h2 h3 -> agree ci h1 h3.
Proof. intros H12 H23 k Hk. rewrite H23, H12 by exact Hk. reflexivity. Qed.

Lemma has_agree ci h h' k :
  agree ci h h' -> k <> TimeoutAnnotation -> has (seen ci h') k = has (seen ci h) k.
Proof. intros Ha Hk. unfold has. rewrite Ha by exact Hk. reflexivity. Qed.

Lemma get_agree ci h h' k :
  agree ci h h' -> k <> TimeoutAnnotation -> get (seen ci h') k = get (seen ci h) k.
Proof. intros Ha Hk. unfold get. rewrite Ha by exact Hk. reflexivity. Qed.

(** What any returned route carries, whatever the annotations. *)
Lemma makeRoute_Some ci host rule h r e h' :
  makeRoute ci host rule h = ((Some r, e), h') ->
  e = None
  /\ Name (RouteMeta r) = routeName (UID (IngressMeta ci)) host
  /\ Host (RouteSpec_ r) = host
  /\ ToName (To (RouteSpec_ r)) = (lbService (Status ci)).1
  /\ Namespace (RouteMeta r) = (lbService (Status ci)).2
  /\ (lbService (Status ci)).1 <> "" /\ (lbService (Status ci)).2 <> "".
Proof.
  unfold makeRoute, mbind, M_bind, mret, M_ret, load_map, store_key, make_map.
  intros Hrun.
  destruct (lbService (Status ci)) as [sn ns] eqn:Hlb.
  repeat case_match; simplify_eq; simpl; naive_solver.
Qed.

Lemma rangeHosts_made ci rule hosts :
  forall routes h res h',
  rangeHosts ci rule hosts routes h = (inl res, h') ->
  exists new, res = routes ++ new /\ Forall (made ci) new.
Proof.
  induction hosts as [|host rest IH]; intros routes h res h' Hrun.
  - simpl in Hrun. injection Hrun as <- <-. exists []. rewrite app_nil_r. auto.
  - simpl in Hrun. destruct (routable host); [|eapply IH; exact Hrun].
    unfold mbind, M_bind in Hrun.
    destruct (makeRoute ci host rule h) as [[route err] h1] eqn:Hm.
    destruct err as [e|]; [discriminate|].
    destruct route as [r|]; [|eapply IH; exact Hrun].
    apply IH in Hrun as (new & -> & Hnew).
    exists (r :: new). split; [rewrite <- app_assoc; reflexivity|].
    constructor; [|exact Hnew].
    exists host, rule, h, None, h1. split; [exact Hm|].
    apply makeRoute_Some in Hm. tauto.
Qed.

Lemma rangeRules_made ci rules :
  forall routes h res h',
  rangeRules ci rules routes h = (inl res, h') ->
  exists new, res = routes ++ new /\ Forall (made ci) new.
Proof.
  induction rules as [|rule rest IH]; intros routes h res h' Hrun.
  - simpl in Hrun. injection Hrun as <- <-. exists []. rewrite app_nil_r. auto.
  - simpl in Hrun. case_decide; [eapply IH; exact Hrun|].
    unfold mbind, M_bind in Hrun.
    destruct (rangeHosts ci rule (Hosts rule) routes h) as [[routes1|e] h1] eqn:Hh;
      [|discriminate].
    apply rangeHosts_made in Hh as (new1 & -> & Hnew1).
    apply IH in Hrun as (new2 & -> & Hnew2).
    exists (new1 ++ new2). split; [rewrite app_assoc; reflexivity|].
    apply Forall_app; auto.
Qed.

(** Every route of the list that [MakeRoutes] returns was returned by a
    call of [makeRoute]. *)
Lemma MakeRoutes_made ci h routes e h' :
  MakeRoutes ci h = ((Some routes, e), h') -> Forall (made ci) routes.
Proof.
  unfold MakeRoutes, mbind, M_bind. intros Hrun.
  destruct (rangeRules ci (Rules (Spec ci)) [] h) as [[res|err] h1] eqn:Hr;
    [|discriminate].
  injection Hrun as <- _ _.
  apply rangeRules_made in Hr as (new & -> & Hnew). exact Hnew.
Qed.

(** *** The load-balancer entry that names the service *)

Lemma matchingLB_nonempty e : matchingLB e -> DomainInternal e <> "".
Proof.
  intros [Hlen _] Hempty. rewrite Hempty in Hlen. simpl in Hlen. lia.
Qed.

Lemma lbStep_match acc e : matchingLB e -> lbStep acc e = lbLabels e.
Proof.
  intros Hm. unfold lbStep.
  destruct (decide (DomainInternal e <> "")) as [_|Hempty].
  - destruct (decide _) as [_|Hno]; [reflexivity | contradiction].
  - exfalso. apply Hempty. apply matchingLB_nonempty. exact Hm.
Qed.

Lemma lbStep_other acc e : ~ matchingLB e -> lbStep acc e = acc.
Proof.
  intros Hno. unfold lbStep.
  destruct (decide (DomainInternal e <> "")); [|reflexivity].
  destruct (decide _) as [Hm|_]; [contradiction | reflexivity].
Qed.

Lemma fold_lbStep_other post :
  Forall (fun x => ~ matchingLB x) post ->
  forall acc, fold_left lbStep post acc = acc.
Proof.
  induction 1 as [|x post Hx _ IH]; intros acc; simpl.
  - reflexivity.
  - rewrite lbStep_other by exact Hx. apply IH.
Qed.

(** C1 (amended): when the public load-balancer status holds an entry whose
    internal domain has more than two labels with the third [svc], the
    service name and the namespace are the first and second label of the
    LAST such entry (the loop has no [break]), and a route returned by
    [makeRoute] targets that service in that namespace. *)
Theorem lbService_last_match status lb pre e post :
  PublicLoadBalancer status = Some lb ->
  LBIngress lb = pre ++ e :: post ->
  matchingLB e ->
  Forall (fun x => ~ matchingLB x) post ->
  lbService status = lbLabels e
  /\ forall ci host rule h r err h',
       Status ci = status ->
       makeRoute ci host rule h = ((Some r, err), h') ->
       ToName (To (RouteSpec_ r)) = (lbLabels e).1
       /\ Namespace (RouteMeta r) = (lbLabels e).2.
Proof.
  intros Hlb Hlist He Hpost.
  assert (Hsvc : lbService status = lbLabels e).
  { unfold lbService. rewrite Hlb, Hlist, fold_left_app. simpl.
    rewrite fold_lbStep_other by exact Hpost. apply lbStep_match. exact He. }
  split; [exact Hsvc|].
  intros ci host rule h r err h' Hst Hrun.
  apply makeRoute_Some in Hrun as (_ & _ & _ & Hto & Hns & _).
  rewrite Hto, Hns, Hst, Hsvc. split; reflexivity.
Qed.

(** *** The name of a route *)

Lemma byte_range x : 0 <= Z.land x 255 < 256.
Proof.
  change 255 with (Z.ones 8). rewrite Z.land_ones by lia.
  apply Z.mod_pos_bound. lia.
Qed.

Lemma Sum256_head data :
  exists b0 b1 b2 rest,
    Sha256.Sum256 data = b0 :: b1 :: b2 :: rest
    /\ 0 <= b0 < 256 /\ 0 <= b1 < 256 /\ 0 <= b2 < 256.
Proof.
  unfold Sha256.Sum256.
  set (d := Sha256.blockGeneric _ _).
  eexists _, _, _, _. split; [reflexivity|].
  split; [|split]; apply byte_range.
Qed.

Lemma hashHost_three_bytes host :
  exists b0 b1 b2,
    (0 <= b0 < 256 /\ 0 <= b1 < 256 /\ 0 <= b2 < 256)
    /\ hashHost host = hex [b0; b1; b2].
Proof.
  destruct (Sum256_head (bytes host)) as (b0 & b1 & b2 & rest & Hsum & Hb).
  exists b0, b1, b2. split; [exact Hb|].
  unfold hashHost. rewrite Hsum. unfold slice. cbn [hex substring Nat.sub].
  destruct (hex rest); reflexivity.
Qed.

(** C2 (amended): the name of every route that [MakeRoutes] returns is a
    function of the unique identifier of the ingress and of the host of the
    route: ["route-" + uid + "-"] followed by the hexadecimal encoding of
    the six characters that are the first six hexadecimal digits of
    [sha256(host)], twelve digits in all.  Those six characters encode three
    bytes, so the suffix ranges over [256^3 = 2^24] values. *)
Theorem route_name_of_uid_and_host ci h routes err h' :
  MakeRoutes ci h = ((Some routes, err), h') ->
  Forall (fun r =>
    Name (RouteMeta r) = routeName (UID (IngressMeta ci)) (Host (RouteSpec_ r))
    /\ exists b0 b1 b2,
         (0 <= b0 < 256 /\ 0 <= b1 < 256 /\ 0 <= b2 < 256)
         /\ substring 0 6 (hex (Sha256.Sum256 (bytes (Host (RouteSpec_ r))))) = hex [b0; b1; b2]
         /\ Name (RouteMeta r) =
              "route-" +:+ UID (IngressMeta ci) +:+ "-" +:+ hex (bytes (hex [b0; b1; b2]))
         /\ String.length (hex (bytes (hex [b0; b1; b2]))) = 12%nat) routes.
Proof.
  intros Hrun. apply MakeRoutes_made in Hrun.
  eapply Forall_impl; [exact Hrun|].
  intros r (host & rule & h0 & e & h1 & Hm & Hhost).
  apply makeRoute_Some in Hm as (_ & Hname & _).
  rewrite Hhost. split; [exact Hname|].
  destruct (hashHost_three_bytes host) as (b0 & b1 & b2 & Hb & Hh).
  exists b0, b1, b2. split; [exact Hb|].
  split; [exact Hh|].
  split; [|reflexivity].
  rewrite Hname. unfold routeName. rewrite Hh. reflexivity.
Qed.

(** *** The annotation that disables the route *)

Lemma makeRoute_disabled ci host rule h :
  is_Some (seen ci h !! DisableRouteAnnotation) ->
  makeRoute ci host rule h = ((None, None), h).
Proof.
  unfold seen. intros Hdis.
  unfold makeRoute, mbind, M_bind, mret, M_ret, load_map.
  destruct (Annotations (IngressMeta ci)) as [l|].
  - destruct (decide (Visibility rule = IngressVisibilityClusterLocal)); [reflexivity|].
    unfold has. rewrite bool_decide_eq_true_2 by exact Hdis. reflexivity.
  - rewrite lookup_empty in Hdis. destruct Hdis as [? Hdis]. discriminate.
Qed.

Lemma rangeHosts_disabled ci rule hosts routes h :
  is_Some (seen ci h !! DisableRouteAnnotation) ->
  rangeHosts ci rule hosts routes h = (inl routes, h).
Proof.
  intros Hdis. induction hosts as [|host rest IH]; simpl; [reflexivity|].
  destruct (routable host); [|exact IH].
  unfold mbind, M_bind. rewrite makeRoute_disabled by exact Hdis. exact IH.
Qed.

Lemma rangeRules_disabled ci rules routes h :
  is_Some (seen ci h !! DisableRouteAnnotation) ->
  rangeRules ci rules routes h = (inl routes, h).
Proof.
  intros Hdis. induction rules as [|rule rest IH]; simpl; [reflexivity|].
  case_decide; [exact IH|].
  unfold mbind, M_bind. rewrite rangeHosts_disabled by exact Hdis. exact IH.
Qed.

(** C10: when the annotations of the ingress contain the disable-route
    annotation, [MakeRoutes] returns the empty list of routes and no error,
    whatever the load-balancer status, and leaves the store as it was: the
    check comes before the load-balancer status is looked at. *)
Theorem MakeRoutes_disabled ci h :
  is_Some (seen ci h !! DisableRouteAnnotation) ->
  MakeRoutes ci h = ((Some [], None), h).
Proof.
  intros Hdis. unfold MakeRoutes, mbind, M_bind.
  rewrite rangeRules_disabled by exact Hdis. reflexivity.
Qed.

End Store.

Section DistinctKeys.
Context `{V : Vendored}.
Hypothesis HTTPOption_not_timeout : HTTPOptionAnnotationKey <> TimeoutAnnotation.

Lemma edgeTerminationPolicy_get ci m m' :
  get m' HTTPOptionAnnotationKey = get m HTTPOptionAnnotationKey ->
  edgeTerminationPolicy ci m' = edgeTerminationPolicy ci m.
Proof. intros Hg. unfold edgeTerminationPolicy. rewrite Hg. reflexivity. Qed.

Lemma get_store_ne (h : heap) (l : loc) (k0 v k : string) :
  k <> k0 -> get (deref (<[l := <[k0 := v]> (deref h l)]> h) l) k = get (deref h l) k.
Proof. intros Hne. unfold get. rewrite deref_store_ne by exact Hne. reflexivity. Qed.

Lemma has_store_ne (h : heap) (l : loc) (k0 v k : string) :
  k <> k0 -> has (deref (<[l := <[k0 := v]> (deref h l)]> h) l) k = has (deref h l) k.
Proof. intros Hne. unfold has. rewrite deref_store_ne by exact Hne. reflexivity. Qed.

(** The rest of [makeRoute] once the annotation map is at hand: the
    same case analysis serves an ingress with and without annotations. *)
Ltac makeRoute_tail :=
  destruct (lbService (Status _)) as [sn ns] eqn:Hlb; simpl;
  destruct (decide (sn = "" \/ ns = "")); [reflexivity|];
  rewrite (edgeTerminationPolicy_get _ _ _
             (get_store_ne _ _ TimeoutAnnotation _ _ HTTPOption_not_timeout));
  destruct (edgeTerminationPolicy _ _) eqn:Hpol; [|reflexivity];
  unfold built, passthrough;
  rewrite has_store_ne by discriminate;
  rewrite ?Hpol, ?Hlb;
  destruct (has _ EnablePassthroughRouteAnnotation || _);
  (eexists; split; [reflexivity | repeat split]).

Lemma makeRoute_spec ci host rule h :
  Visibility rule <> IngressVisibilityClusterLocal ->
  exists h', agree ci h h' /\
    match judge ci (seen ci h) with
    | Skip => makeRoute ci host rule h = ((None, None), h')
    | Fail e => makeRoute ci host rule h = ((None, Some e), h')
    | Build => exists r,
        makeRoute ci host rule h = ((Some r, None), h') /\ built ci host (seen ci h) r
    end.
Proof.
  intros Hvis.
  unfold makeRoute, judge, agree, seen, mbind, M_bind, mret, M_ret, load_map, store_key, make_map.
  rewrite ?Hann; destruct (Annotations (IngressMeta ci)) as [l|] eqn:Hann; simpl.
  - destruct (decide (Visibility rule = IngressVisibilityClusterLocal)) as [|_]; [contradiction|].
    destruct (has (deref h l) DisableRouteAnnotation) eqn:Hdis.
    + exists h. split; reflexivity.
    + exists (<[l := <[TimeoutAnnotation := DefaultTimeout]> (deref h l)]> h).
      split; [intros k Hk; apply deref_store_ne; exact Hk|].
      makeRoute_tail.
  - destruct (decide (Visibility rule = IngressVisibilityClusterLocal)) as [|_]; [contradiction|].
    pose proof (deref_fresh h) as Hfresh.
    set (h1 := h ++ [∅]) in *. set (l := List.length h) in *.
    rewrite <- Hfresh.
    destruct (has (deref h1 l) DisableRouteAnnotation) eqn:Hdis.
    + exists h1. split; reflexivity.
    + exists (<[l := <[TimeoutAnnotation := DefaultTimeout]> (deref h1 l)]> h1).
      split; [rewrite Hfresh; reflexivity|].
      makeRoute_tail.
Qed.

Lemma passthrough_agree ci h h' :
  agree ci h h' -> passthrough ci (seen ci h') = passthrough ci (seen ci h).
Proof.
  intros Ha. unfold passthrough.
  rewrite (has_agree _ _ _ _ Ha) by discriminate. reflexivity.
Qed.

Lemma policy_agree ci h h' :
  agree ci h h' ->
  edgeTerminationPolicy ci (seen ci h') = edgeTerminationPolicy ci (seen ci h).
Proof.
  intros Ha. apply edgeTerminationPolicy_get.
  apply get_agree; [exact Ha | exact HTTPOption_not_timeout].
Qed.

Lemma judge_agree ci h h' :
  agree ci h h' -> judge ci (seen ci h') = judge ci (seen ci h).
Proof.
  intros Ha. unfold judge.
  rewrite (has_agree _ _ _ _ Ha) by discriminate.
  rewrite (policy_agree _ _ _ Ha). reflexivity.
Qed.

Lemma built_agree ci host h h' r :
  agree ci h h' -> built ci host (seen ci h') r -> built ci host (seen ci h) r.
Proof.
  intros Ha. unfold built.
  rewrite (passthrough_agree _ _ _ Ha), (policy_agree _ _ _ Ha). tauto.
Qed.

Lemma rangeHosts_spec ci rule :
  Visibility rule <> IngressVisibilityClusterLocal ->
  forall hosts routes h,
  exists res h', rangeHosts ci rule hosts routes h = (res, h') /\ agree ci h h' /\
    loop_spec ci h (map (pair rule) (filter (fun host => routable host = true) hosts))
      routes res.
Proof.
  intros Hvis. induction hosts as [|host rest IH]; intros routes h.
  - exists (inl routes), h. split; [reflexivity|]. split; [apply agree_refl|].
    unfold loop_spec. destruct (judge ci (seen ci h)); try reflexivity.
    exists []. split; [rewrite app_nil_r; reflexivity | constructor].
  - simpl rangeHosts. rewrite filter_cons.
    destruct (routable host) eqn:Hr.
    + destruct (decide (true = true)) as [_|]; [|congruence].
      destruct (makeRoute_spec ci host rule h Hvis) as (h1 & Ha1 & Hm).
      unfold mbind, M_bind at 1.
      unfold loop_spec. simpl map.
      destruct (judge ci (seen ci h)) as [|e|] eqn:Hj.
      * rewrite Hm.
        destruct (IH routes h1) as (res & h' & Hrun & Ha & Hs).
        exists res, h'. split; [exact Hrun|]. split; [eapply agree_trans; eassumption|].
        unfold loop_spec in Hs. rewrite (judge_agree _ _ _ Ha1), Hj in Hs. exact Hs.
      * rewrite Hm. exists (inr e), h1. split; [reflexivity|]. split; [exact Ha1|reflexivity].
      * destruct Hm as (r & Hm & Hb). rewrite Hm.
        destruct (IH (routes ++ [r]) h1) as (res & h' & Hrun & Ha & Hs).
        exists res, h'. split; [exact Hrun|]. split; [eapply agree_trans; eassumption|].
        unfold loop_spec in Hs. rewrite (judge_agree _ _ _ Ha1), Hj in Hs.
        destruct Hs as (new & -> & Hnew).
        exists (r :: new). split; [rewrite <- app_assoc; reflexivity|].
        constructor; [exact Hb|].
        eapply Forall2_impl; [exact Hnew|].
        intros p r' Hb'. eapply built_agree; eassumption.
    + destruct (decide (false = true)) as [|_]; [congruence|].
      apply IH.
Qed.

Lemma appended_agree ci h h' pairs new :
  agree ci h h' -> appended ci h' pairs new -> appended ci h pairs new.
Proof.
  intros Ha Hnew. eapply Forall2_impl; [exact Hnew|].
  intros p r Hb. eapply built_agree; eassumption.
Qed.

Lemma rangeRules_spec ci rules :
  forall routes h,
  exists res h', rangeRules ci rules routes h = (res, h') /\ agree ci h h' /\
    loop_spec ci h (processedIn rules) routes res.
Proof.
  induction rules as [|rule rest IH]; intros routes h.
  - exists (inl routes), h. split; [reflexivity|]. split; [apply agree_refl|].
    unfold loop_spec. simpl. destruct (judge ci (seen ci h)); try reflexivity.
    exists []. split; [rewrite app_nil_r; reflexivity | constructor].
  - simpl rangeRules. unfold processedIn. simpl flat_map. fold (processedIn rest).
    destruct (decide (Visibility rule = IngressVisibilityClusterLocal)) as [Hcl|Hvis].
    + simpl. apply IH.
    + destruct (rangeHosts_spec ci rule Hvis (Hosts rule) routes h)
        as (res1 & h1 & Hrun1 & Ha1 & Hs1).
      unfold mbind, M_bind at 1. rewrite Hrun1.
      set (P1 := map (pair rule) (filter (fun host => routable host = true) (Hosts rule))) in *.
      unfold loop_spec in *.
      destruct (judge ci (seen ci h)) as [|e|] eqn:Hj.
      * subst res1.
        destruct (IH routes h1) as (res & h' & Hrun & Ha & Hs).
        exists res, h'. split; [exact Hrun|]. split; [eapply agree_trans; eassumption|].
        rewrite (judge_agree _ _ _ Ha1), Hj in Hs. exact Hs.
      * subst res1. destruct P1 as [|p1 P1]; simpl.
        -- destruct (IH routes h1) as (res & h' & Hrun & Ha & Hs).
           exists res, h'. split; [exact Hrun|]. split; [eapply agree_trans; eassumption|].
           rewrite (judge_agree _ _ _ Ha1), Hj in Hs. exact Hs.
        -- exists (inr e), h1. split; [reflexivity|]. split; [exact Ha1|reflexivity].
      * destruct Hs1 as (new1 & -> & Hnew1).
        destruct (IH (routes ++ new1) h1) as (res & h' & Hrun & Ha & Hs).
        exists res, h'. split; [exact Hrun|]. split; [eapply agree_trans; eassumption|].
        rewrite (judge_agree _ _ _ Ha1), Hj in Hs.
        destruct Hs as (new2 & -> & Hnew2).
        exists (new1 ++ new2). split; [rewrite app_assoc; reflexivity|].
        apply Forall2_app; [exact Hnew1|].
        eapply appended_agree; eassumption.
Qed.

(** The whole of [MakeRoutes], by the verdict of [makeRoute] on the
    annotations and the load-balancer status of the ingress. *)
Lemma MakeRoutes_spec ci h :
  exists res h', MakeRoutes ci h = (res, h') /\ agree ci h h' /\
    match judge ci (seen ci h) with
    | Skip => res = (Some [], None)
    | Fail e => res = match processed ci with
                      | [] => (Some [], None)
                      | _ :: _ => (None, Some e)
                      end
    | Build => exists routes, res = (Some routes, None) /\ appended ci h (processed ci) routes
    end.
Proof.
  destruct (rangeRules_spec ci (Rules (Spec ci)) [] h) as (r & h' & Hrun & Ha & Hs).
  unfold MakeRoutes, mbind, M_bind. rewrite Hrun. fold (processed ci) in Hs.
  unfold loop_spec in Hs.
  destruct (judge ci (seen ci h)) as [|e|].
  - subst r. eexists _, h'. split; [reflexivity|]. split; [exact Ha|reflexivity].
  - subst r. destruct (processed ci); eexists _, h';
      (split; [reflexivity|]; split; [exact Ha|reflexivity]).
  - destruct Hs as (new & -> & Hnew).
    eexists _, h'. split; [reflexivity|]. split; [exact Ha|].
    exists new. split; [reflexivity | exact Hnew].
Qed.

(** *** The pairs that are processed *)

Lemma routable_spec host : routable host = true <-> externally_routable host.
Proof.
  unfold routable, externally_routable.
  rewrite orb_true_iff, andb_true_iff, !bool_decide_eq_true. reflexivity.
Qed.

Lemma processed_hosts ci : map snd (processed ci) = expected_hosts ci.
Proof.
  unfold processed, processedIn, expected_hosts.
  induction (Rules (Spec ci)) as [|rule rest IH]; simpl; [reflexivity|].
  rewrite map_app, IH. f_equal.
  case_decide; [reflexivity|].
  rewrite map_map, map_id. apply list_filter_iff, routable_spec.
Qed.

Lemma in_processed ci rule host :
  In rule (Rules (Spec ci)) ->
  Visibility rule <> IngressVisibilityClusterLocal ->
  In host (Hosts rule) ->
  externally_routable host ->
  In (rule, host) (processed ci).
Proof.
  intros Hrule Hvis Hhost Hext. unfold processed, processedIn.
  apply in_flat_map. exists rule. split; [exact Hrule|].
  case_decide; [contradiction|].
  apply in_map, list_elem_of_In, list_elem_of_filter.
  split; [apply routable_spec; exact Hext | apply list_elem_of_In; exact Hhost].
Qed.

Lemma processed_in ci rule host :
  In (rule, host) (processed ci) ->
  In rule (Rules (Spec ci))
  /\ Visibility rule <> IngressVisibilityClusterLocal
  /\ In host (Hosts rule)
  /\ externally_routable host.
Proof.
  unfold processed, processedIn. intros Hin.
  apply in_flat_map in Hin as (rule' & Hrule & Hin).
  case_decide; [destruct Hin|].
  apply in_map_iff in Hin as (host' & [= <- <-] & Hin).
  apply list_elem_of_In, list_elem_of_filter in Hin as [Hr Hin].
  repeat split; [exact Hrule | assumption | apply list_elem_of_In; exact Hin
                | apply routable_spec; exact Hr].
Qed.

Lemma appended_hosts ci h pairs routes :
  appended ci h pairs routes ->
  map (fun r => Host (RouteSpec_ r)) routes = map snd pairs.
Proof.
  induction 1 as [|p r pairs routes Hb _ IH]; simpl; [reflexivity|].
  rewrite IH. f_equal. apply Hb.
Qed.


Lemma judge_Fail ci m e :
  judge ci m = Fail e ->
  e = ErrNoValidLoadbalancerDomain
  \/ e = Errorf ("incorrect HTTPOption annotation: " +:+ get m HTTPOptionAnnotationKey).
Proof.
  unfold judge, edgeTerminationPolicy. intros Hj.
  repeat case_match; simplify_eq; auto.
Qed.

Lemma judge_not_Skip ci m :
  m !! DisableRouteAnnotation = None -> judge ci m <> Skip.
Proof.
  intros Hnone. unfold judge, has. rewrite Hnone.
  rewrite bool_decide_eq_false_2 by (intros [? ?]; discriminate).
  repeat case_match; discriminate.
Qed.

Lemma rangeHosts_none ci rule hosts routes h :
  filter externally_routable hosts = [] ->
  rangeHosts ci rule hosts routes h = (inl routes, h).
Proof.
  induction hosts as [|host rest IH]; simpl; [reflexivity|].
  rewrite filter_cons. destruct (routable host) eqn:Hr.
  - apply routable_spec in Hr. rewrite decide_True by exact Hr. discriminate.
  - intros Hnil. case_decide; [discriminate|]. apply IH. exact Hnil.
Qed.

Lemma rangeRules_none ci rules routes h :
  flat_map (fun rule =>
    if decide (Visibility rule = IngressVisibilityClusterLocal) then []
    else filter externally_routable (Hosts rule)) rules = [] ->
  rangeRules ci rules routes h = (inl routes, h).
Proof.
  induction rules as [|rule rest IH]; simpl; [reflexivity|].
  intros Hnil. apply app_eq_nil in Hnil as [Hhead Hrest].
  case_decide; [apply IH; exact Hrest|].
  unfold mbind, M_bind. rewrite rangeHosts_none by exact Hhead.
  apply IH. exact Hrest.
Qed.

(** *** Failure of the whole call *)

(** C4: [MakeRoutes] is all-or-nothing.  It returns either a list of routes
    and no error, or the nil list and an error, which is the missing
    load-balancer domain or the incorrect HTTP-option annotation.  When
    [makeRoute] fails for a rule and host that the loops process, the call
    returns the nil list with that error; and an error is only returned
    when [makeRoute] fails for such a pair. *)
Theorem MakeRoutes_all_or_nothing ci h :
  ((exists routes h', MakeRoutes ci h = ((Some routes, None), h'))
   \/ (exists e h', MakeRoutes ci h = ((None, Some e), h')
         /\ (e = ErrNoValidLoadbalancerDomain
             \/ e = Errorf ("incorrect HTTPOption annotation: "
                            +:+ get (seen ci h) HTTPOptionAnnotationKey))))
  /\ (forall rule host route e h1,
        In rule (Rules (Spec ci)) ->
        Visibility rule <> IngressVisibilityClusterLocal ->
        In host (Hosts rule) ->
        externally_routable host ->
        makeRoute ci host rule h = ((route, Some e), h1) ->
        exists h', MakeRoutes ci h = ((None, Some e), h'))
  /\ (forall routes e h',
        MakeRoutes ci h = ((routes, Some e), h') ->
        routes = None
        /\ exists rule host h1,
             In rule (Rules (Spec ci))
             /\ Visibility rule <> IngressVisibilityClusterLocal
             /\ In host (Hosts rule)
             /\ externally_routable host
             /\ makeRoute ci host rule h = ((None, Some e), h1)).
Proof.
  destruct (MakeRoutes_spec ci h) as (res & h' & Hrun & _ & Hres).
  split; [|split].
  - destruct (judge ci (seen ci h)) as [|e|] eqn:Hj.
    + left. subst res. eauto.
    + destruct (processed ci); subst res; [left; eauto|].
      right. exists e, h'. split; [exact Hrun|]. apply (judge_Fail _ _ _ Hj).
    + destruct Hres as (routes & -> & _). left. eauto.
  - intros rule host route e h1 Hrule Hvis Hhost Hext Hm.
    pose proof (in_processed _ _ _ Hrule Hvis Hhost Hext) as Hin.
    destruct (makeRoute_spec ci host rule h Hvis) as (h2 & _ & Hspec).
    destruct (judge ci (seen ci h)) as [|e'|].
    + rewrite Hspec in Hm. discriminate.
    + rewrite Hspec in Hm. injection Hm as _ -> _.
      destruct (processed ci); [destruct Hin|]. subst res. eauto.
    + destruct Hspec as (r & Hspec & _). rewrite Hspec in Hm. discriminate.
  - intros routes e h1 Hfail. rewrite Hrun in Hfail. injection Hfail as -> _.
    destruct (judge ci (seen ci h)) as [|e'|] eqn:Hj.
    + discriminate.
    + destruct (processed ci) as [|[rule host] rest] eqn:Hp; [discriminate|].
      injection Hres as <- <-. split; [reflexivity|].
      assert (Hin : In (rule, host) (processed ci)) by (rewrite Hp; left; reflexivity).
      apply processed_in in Hin as (Hrule & Hvis & Hhost & Hext).
      destruct (makeRoute_spec ci host rule h Hvis) as (h2 & _ & Hspec).
      rewrite Hj in Hspec. exists rule, host, h2. auto.
    + destruct Hres as (? & ? & _). discriminate.
Qed.

(** *** The hosts that get a route *)

(** C5: the test of [MakeRoutes] on a host holds exactly when the host has
    two labels, or more than two with a third label other than [svc].  An
    ingress without such a host in a rule that is not cluster-local returns
    the empty list and no error, with the store untouched, whatever its
    load-balancer status: the other hosts and the cluster-local rules are
    skipped.  When the call succeeds (and the route is not disabled by the
    annotation) the hosts of the routes are exactly those hosts, in order;
    an error is only returned when there is such a host; and an ingress
    whose rules are all cluster-local gets no route. *)
Theorem MakeRoutes_external_hosts ci h :
  (forall host, routable host = true <-> externally_routable host)
  /\ (expected_hosts ci = [] -> MakeRoutes ci h = ((Some [], None), h))
  /\ (forall routes err h',
        MakeRoutes ci h = ((Some routes, err), h') ->
        seen ci h !! DisableRouteAnnotation = None ->
        map (fun r => Host (RouteSpec_ r)) routes = expected_hosts ci)
  /\ (forall routes e h',
        MakeRoutes ci h = ((routes, Some e), h') -> expected_hosts ci <> [])
  /\ (Forall (fun rule => Visibility rule = IngressVisibilityClusterLocal) (Rules (Spec ci)) ->
      MakeRoutes ci h = ((Some [], None), h)).
Proof.
  split; [exact routable_spec|].
  assert (Hnone : expected_hosts ci = [] -> MakeRoutes ci h = ((Some [], None), h)).
  { intros Hnil. unfold MakeRoutes, mbind, M_bind.
    rewrite rangeRules_none by exact Hnil. reflexivity. }
  split; [exact Hnone|]. split.
  - intros routes err h1 Hrun Hdis.
    destruct (MakeRoutes_spec ci h) as (res & h' & Hrun' & _ & Hres).
    rewrite Hrun in Hrun'. injection Hrun' as <- _.
    pose proof (judge_not_Skip ci _ Hdis) as Hskip.
    rewrite <- processed_hosts.
    destruct (judge ci (seen ci h)) as [|e|]; [contradiction| |].
    + destruct (processed ci); [|discriminate].
      injection Hres as -> _. reflexivity.
    + destruct Hres as (routes' & [= <- _] & Happ).
      eapply appended_hosts. exact Happ.
  - split.
    + intros routes e h1 Hfail Hnil.
      rewrite (Hnone Hnil) in Hfail. discriminate.
    + intros Hlocal. apply Hnone. unfold expected_hosts.
      induction Hlocal as [|rule rest Hcl _ IH]; simpl; [reflexivity|].
      rewrite decide_True by exact Hcl. exact IH.
Qed.

(** *** TLS termination and the insecure edge policy *)





(** *** The legacy HTTP-option annotation *)

(** C7 (amended): for an ingress whose annotations hold the legacy
    HTTP-option annotation with a non-empty value, and for which [makeRoute]
    gets as far as the choice of the policy (the rule is not cluster-local,
    the route is not disabled, the load-balancer status names a service):
    when the value is [enabled] in any case the route has insecure edge
    policy allow, unless a passthrough trigger forces redirect; when it is
    [redirected] the policy is redirect; for any other value [makeRoute]
    returns the incorrect-HTTPOption-annotation error, and a [MakeRoutes]
    call that processes the host returns the nil list and that error. *)
Theorem legacy_http_option_annotation ci host rule h :
  get (seen ci h) HTTPOptionAnnotationKey <> "" ->
  Visibility rule <> IngressVisibilityClusterLocal ->
  seen ci h !! DisableRouteAnnotation = None ->
  (lbService (Status ci)).1 <> "" ->
  (lbService (Status ci)).2 <> "" ->
  let value := get (seen ci h) HTTPOptionAnnotationKey in
  let incorrect := Errorf ("incorrect HTTPOption annotation: " +:+ value) in
  (ToLower unicode_lower value = "enabled" ->
     exists r h', makeRoute ci host rule h = ((Some r, None), h')
       /\ InsecureEdgeTerminationPolicy <$> RouteTLS (RouteSpec_ r) =
            Some (if passthrough ci (seen ci h)
                  then InsecureEdgeTerminationPolicyRedirect
                  else InsecureEdgeTerminationPolicyAllow))
  /\ (ToLower unicode_lower value = "redirected" ->
        exists r h', makeRoute ci host rule h = ((Some r, None), h')
          /\ InsecureEdgeTerminationPolicy <$> RouteTLS (RouteSpec_ r) =
               Some InsecureEdgeTerminationPolicyRedirect)
  /\ (ToLower unicode_lower value <> "enabled" ->
      ToLower unicode_lower value <> "redirected" ->
      (exists h', makeRoute ci host rule h = ((None, Some incorrect), h'))
      /\ (In rule (Rules (Spec ci)) -> In host (Hosts rule) -> externally_routable host ->
          exists h', MakeRoutes ci h = ((None, Some incorrect), h'))).
Proof.
  intros Hvalue Hvis Hdis Hsn Hns value incorrect.
  destruct (makeRoute_spec ci host rule h Hvis) as (h1 & _ & Hspec).
  destruct (MakeRoutes_spec ci h) as (res & h2 & Hrun & _ & Hres).
  unfold judge, has in Hspec, Hres. rewrite Hdis in Hspec, Hres.
  rewrite bool_decide_eq_false_2 in Hspec, Hres by (intros [? ?]; discriminate).
  rewrite decide_False in Hspec, Hres by tauto.
  assert (Hpol : edgeTerminationPolicy ci (seen ci h) =
    if decide (ToLower unicode_lower value = "enabled")
    then inl InsecureEdgeTerminationPolicyAllow
    else if decide (ToLower unicode_lower value = "redirected")
         then inl InsecureEdgeTerminationPolicyRedirect
         else inr incorrect).
  { unfold edgeTerminationPolicy. rewrite decide_True by exact Hvalue. reflexivity. }
  split; [|split].
  - intros Hen. rewrite decide_True in Hpol by exact Hen.
    rewrite Hpol in Hspec.
    destruct Hspec as (r & Hm & Hb). exists r, h1. split; [exact Hm|].
    destruct Hb as (_ & _ & _ & _ & _ & ->). rewrite Hpol.
    destruct (passthrough ci (seen ci h)); reflexivity.
  - intros Hred.
    assert (Hen : ToLower unicode_lower value <> "enabled")
      by (rewrite Hred; discriminate).
    rewrite decide_False in Hpol by exact Hen.
    rewrite decide_True in Hpol by exact Hred.
    rewrite Hpol in Hspec.
    destruct Hspec as (r & Hm & Hb). exists r, h1. split; [exact Hm|].
    destruct Hb as (_ & _ & _ & _ & _ & ->). rewrite Hpol.
    destruct (passthrough ci (seen ci h)); reflexivity.
  - intros Hen Hred. rewrite !decide_False in Hpol by assumption.
    rewrite Hpol in Hspec, Hres.
    split; [exists h1; exact Hspec|].
    intros Hrule Hhost Hext.
    pose proof (in_processed _ _ _ Hrule Hvis Hhost Hext) as Hin.
    destruct (processed ci); [destruct Hin|]. subst res. exists h2. exact Hrun.
Qed.

End DistinctKeys.

End RouteTranslatorProofs.

(** ** Properties of the defaulting *)

Module ServingProofs.

Import Serving.

Section Names.
Variables (networkSection ingressClassKey istioIngressClassName : string).
Variables (ObservabilityCMName ObservabilityBackendKey : string).

Local Abbreviation resolve :=
  (resolveIngress networkSection ingressClassKey istioIngressClassName
     ObservabilityCMName ObservabilityBackendKey).

(** C8: when no ingress backend is enabled, because the ingress block is
    absent or empty or because Kourier, Istio and Contour are all disabled,
    the resolved spec has Kourier enabled with cluster-internal exposure,
    and it is the only backend enabled; the configuration is untouched. *)
Theorem resolveIngress_self_heals spec :
  (IngressBlock spec = None
   \/ exists ic, IngressBlock spec = Some ic
        /\ Enabled (Kourier ic) = false
        /\ Enabled (Istio ic) = false
        /\ Enabled (Contour ic) = false) ->
  exists resolved,
    IngressBlock (resolve spec) = Some resolved
    /\ Kourier resolved = {| Enabled := true; Exposure := Some ClusterIP |}
    /\ Enabled (Istio resolved) = false
    /\ Enabled (Contour resolved) = false
    /\ enabledNames resolved = [KourierBackend]
    /\ Config (resolve spec) = Config spec.
Proof.
  intros Hnone.
  assert (Hoff : let ic := default emptyIngress (IngressBlock spec) in
                 Enabled (Kourier ic) = false /\ Enabled (Istio ic) = false
                 /\ Enabled (Contour ic) = false).
  { destruct Hnone as [-> | (ic & -> & Hoff)]; [repeat split | exact Hoff]. }
  simpl in Hoff. destruct Hoff as (Hk & Hi & Hc).
  unfold resolveIngress.
  set (ic := default emptyIngress (IngressBlock spec)) in *.
  assert (Hnames : enabledNames ic = []).
  { unfold enabledNames, candidates.
    rewrite !filter_cons, filter_nil. simpl. rewrite Hk, Hi, Hc. reflexivity. }
  rewrite Hnames. simpl. eexists. split; [reflexivity|]. simpl.
  repeat split; try assumption.
  unfold enabledNames, candidates.
  rewrite !filter_cons, filter_nil. simpl. rewrite Hi, Hc. reflexivity.
Qed.

Local Abbreviation policy := (monitoring ObservabilityCMName ObservabilityBackendKey).
Local Abbreviation explicit := (backend ObservabilityCMName ObservabilityBackendKey).

Lemma configured_Configure config section key value :
  configured (Configure config section key value) section key = Some value.
Proof.
  unfold configured, Configure. rewrite lookup_insert_eq. simpl.
  apply lookup_insert_eq.
Qed.

(** C9: the monitoring precedence.  A spec with an explicit observability
    backend is returned as it is, and the label is ["false"] exactly when
    the backend is ["none"], ["true"] otherwise.  Without an explicit
    backend and with the toggle set, the label is the toggle; a toggle that
    is off also writes ["none"] to the backend key, a toggle that is on
    leaves the spec as it is, the backend unset.  With neither the label is
    ["true"] and the spec is as it was, the backend unset. *)
Theorem monitoring_precedence toggle spec :
  match explicit spec with
  | Some value =>
      (policy toggle spec).1 = spec
      /\ ((policy toggle spec).2 = "false" <-> value = "none")
      /\ ((policy toggle spec).2 = "true" <-> value <> "none")
  | None =>
      match toggle with
      | Some enabled =>
          (policy toggle spec).2 = FormatBool enabled
          /\ (enabled = false -> explicit (policy toggle spec).1 = Some "none")
          /\ (enabled = true ->
              (policy toggle spec).1 = spec /\ explicit (policy toggle spec).1 = None)
      | None =>
          (policy toggle spec).2 = "true"
          /\ (policy toggle spec).1 = spec
          /\ explicit (policy toggle spec).1 = None
      end
  end.
Proof.
  unfold monitoring.
  destruct (backend _ _ spec) as [value|] eqn:Hb.
  - split; [reflexivity|]. simpl.
    destruct (bool_decide (value = "none")) eqn:Hd; simpl.
    + apply bool_decide_eq_true in Hd. split; split; congruence.
    + apply bool_decide_eq_false in Hd. split; split; congruence.
  - destruct toggle as [[|]|]; simpl.
    + split; [reflexivity|]. split; [discriminate|]. intros _. split; [reflexivity|exact Hb].
    + split; [reflexivity|]. split; [|discriminate]. intros _.
      unfold backend. simpl. apply configured_Configure.
    + split; [reflexivity|]. split; [reflexivity|exact Hb].
Qed.

End Names.

End ServingProofs.

(** ** The functions run on sample values *)

Module Checks.

Import GoStrings Resources RouteTranslator RouteTranslatorProofs Scenario.

(** Goals that are closed by running the functions. *)
Ltac run := vm_compute; exact eq_refl.
Ltac run_all := intros; repeat match goal with |- _ /\ _ => split end; run.

Lemma knative_keys : @HTTPOptionAnnotationKey knative <> TimeoutAnnotation.
Proof. discriminate. Qed.

(** [Sum256] on the test vectors of the standard, and on messages that
    fill one block and need a second one for the padding. *)
Example sha256_vectors :
  hex (Sha256.Sum256 (bytes "abc"))
    = "ba7816bf8f01cfea414140de5dae2223b00361a396177a9cb410ff61f20015ad"
  /\ hex (Sha256.Sum256 (bytes ""))
    = "e3b0c44298fc1c149afbf4c8996fb92427ae41e4649b934ca495991b7852b855"
  /\ hex (Sha256.Sum256 (repeat 97 56))
    = "b35439a4ac6f0948b6d6f9e3c6af0f5f590ce20f1bde7090ef7970686ec6738a"
  /\ hex (Sha256.Sum256 (repeat 97 64))
    = "ffe054fe7ae0cb6dc65c3af9b61d5209f439851db43d0ba5997337df154668eb"
  /\ hex (Sha256.Sum256 (repeat 97 119))
    = "31eba51c313a5c08226adf18d4a359cfdfd8d2e816b13f4af952f7ea6584dcfb"
  /\ hashHost "foo.default.example.com" = "b4924e".
Proof. run_all. Qed.

Example strings_examples :
  Split "kourier.knative-serving-ingress.svc.cluster.local" "."
    = ["kourier"; "knative-serving-ingress"; "svc"; "cluster"; "local"]
  /\ Split "" "." = [""]
  /\ Split "a..b." "." = ["a"; ""; "b"; ""]
  /\ ToLower (fun s => s) "ReDirected" = "redirected"
  /\ hex (bytes "b4924e") = "623439323465".
Proof. run_all. Qed.

(** The scenario of the specification: one route, to [kourier] in
    [knative-serving-ingress], edge termination with redirect, on the
    [http2] port. *)
Example scenario_route :
  map (fun r => (Name (RouteMeta r), Namespace (RouteMeta r), ToName (To (RouteSpec_ r)),
                 Port (RouteSpec_ r), RouteTLS (RouteSpec_ r)))
      (routesOf redirected [])
  = [("route-abc-623439323465", "knative-serving-ingress", "kourier",
      Some {| TargetPort := FromString "http2" |},
      Some {| Termination := TLSTerminationEdge;
              InsecureEdgeTerminationPolicy := InsecureEdgeTerminationPolicyRedirect |})]
  /\ errorOf redirected [] = None.
Proof. run_all. Qed.

(** A host shaped [name.ns.svc.cluster.local] is not routable, a host with
    a single label neither. *)
Example cluster_host_not_routable :
  routable "foo.default.svc.cluster.local" = false
  /\ routable "localhost" = false
  /\ routable "foo.default.example.com" = true
  /\ routable "example.com" = true.
Proof. run_all. Qed.

(** C1, as stated, fails: of two entries with a valid internal domain the
    first matches, yet the service and namespace are those of the second. *)
Lemma lbService_not_first_match :
  matchingLB (lbEntry "first.ns1.svc.cluster.local")
  /\ lbLabels (lbEntry "first.ns1.svc.cluster.local") = ("first", "ns1")
  /\ lbService twoServices = ("second", "ns2")
  /\ map (fun r => (ToName (To (RouteSpec_ r)), Namespace (RouteMeta r)))
         (routesOf (ingress None [] [external ["foo.default.example.com"]] "" twoServices) [])
     = [("second", "ns2")].
Proof.
  split; [split; [vm_compute; lia | reflexivity]|].
  run_all.
Qed.

Lemma lbService_last_match_witness :
  lbService twoServices = ("second", "ns2").
Proof.
  refine (proj1 (lbService_last_match (V := knative) twoServices
            {| LBIngress := map lbEntry ["first.ns1.svc.cluster.local";
                                         "second.ns2.svc.cluster.local"] |}
            [lbEntry "first.ns1.svc.cluster.local"]
            (lbEntry "second.ns2.svc.cluster.local") [] eq_refl eq_refl _ _)).
  - split; [vm_compute; lia | reflexivity].
  - constructor.
Defined.

(** C2, as stated, fails: the suffix of the name is not the six hexadecimal
    digits [b4924e] of the hash but their hexadecimal encoding. *)
Lemma routeName_not_six_digits :
  map (fun r => Name (RouteMeta r)) (routesOf redirected []) = ["route-abc-623439323465"]
  /\ spec_routeName "abc" "foo.default.example.com" = "route-abc-b4924e"
  /\ map (fun r => Name (RouteMeta r)) (routesOf redirected [])
     <> [spec_routeName "abc" "foo.default.example.com"].
Proof.
  split; [vm_compute; exact eq_refl|].
  split; [vm_compute; exact eq_refl|].
  vm_compute. discriminate.
Qed.

Lemma route_name_of_uid_and_host_witness :
  Forall (fun r =>
    Name (RouteMeta r) = routeName "abc" (Host (RouteSpec_ r))
    /\ exists b0 b1 b2,
         (0 <= b0 < 256 /\ 0 <= b1 < 256 /\ 0 <= b2 < 256)
         /\ substring 0 6 (hex (Sha256.Sum256 (bytes (Host (RouteSpec_ r))))) = hex [b0; b1; b2]
         /\ Name (RouteMeta r) = "route-" +:+ "abc" +:+ "-" +:+ hex (bytes (hex [b0; b1; b2]))
         /\ String.length (hex (bytes (hex [b0; b1; b2]))) = 12%nat)
    (routesOf redirected []).
Proof.
  apply (route_name_of_uid_and_host (V := knative) redirected [] _
           (errorOf redirected []) (storeAfter redirected [])).
  vm_compute; exact eq_refl.
Defined.

(** C3: the call writes to the annotation map of the ingress.  The ingress
    has an empty (not nil) annotation map; after [MakeRoutes] the same map
    holds the timeout annotation. *)
Theorem MakeRoutes_writes_ingress_annotations :
  let ci := annotated [] kourier in
  seen ci [∅] = ∅
  /\ errorOf ci [∅] = None
  /\ seen ci [∅] !! TimeoutAnnotation = None
  /\ seen ci (storeAfter ci [∅]) !! TimeoutAnnotation = Some "600s"
  /\ seen ci (storeAfter ci [∅]) = {[ TimeoutAnnotation := "600s" ]}.
Proof.
  run_all.
Qed.

Lemma MakeRoutes_all_or_nothing_witness :
  exists h',
    MakeRoutes (V := knative)
      (ingress None [] [external ["foo.default.example.com"]] "" (statusOf [])) []
    = ((None, Some ErrNoValidLoadbalancerDomain), h').
Proof.
  set (ci := ingress None [] [external ["foo.default.example.com"]] "" (statusOf [])).
  refine (proj1 (proj2 (MakeRoutes_all_or_nothing (V := knative) knative_keys ci []))
            (external ["foo.default.example.com"]) "foo.default.example.com" None
            ErrNoValidLoadbalancerDomain
            (makeRoute (V := knative) ci "foo.default.example.com"
               (external ["foo.default.example.com"]) []).2 _ _ _ _ _).
  - left. reflexivity.
  - discriminate.
  - left. reflexivity.
  - right. split; [vm_compute; lia | discriminate].
  - vm_compute; exact eq_refl.
Defined.

Lemma MakeRoutes_external_hosts_witness :
  map (fun r => Host (RouteSpec_ r)) (routesOf (annotated [] kourier) [∅])
  = expected_hosts (V := knative) (annotated [] kourier).
Proof.
  refine (proj1 (proj2 (proj2 (MakeRoutes_external_hosts (V := knative) knative_keys
                                 (annotated [] kourier) [∅])))
            _ (errorOf (annotated [] kourier) [∅]) (storeAfter (annotated [] kourier) [∅])
            _ _).
  - vm_compute; exact eq_refl.
  - vm_compute; exact eq_refl.
Defined.


(** C7, as stated, fails: with the legacy annotation set to [Enabled] and a
    TLS entry in the spec, the insecure edge policy of the route is redirect,
    not allow. *)
Lemma legacy_enabled_with_tls_redirects :
  let ci := annotated [secret] kourier in
  let h := [ {[ @HTTPOptionAnnotationKey knative := "Enabled" ]} ] in
  get (seen ci h) (@HTTPOptionAnnotationKey knative) = "Enabled"
  /\ ToLower (@unicode_lower knative) "Enabled" = "enabled"
  /\ errorOf ci h = None
  /\ map (fun r => InsecureEdgeTerminationPolicy <$> RouteTLS (RouteSpec_ r)) (routesOf ci h)
     = [Some InsecureEdgeTerminationPolicyRedirect].
Proof. run_all. Qed.

Lemma legacy_http_option_annotation_witness :
  let ci := annotated [] kourier in
  let h := [ {[ @HTTPOptionAnnotationKey knative := "Enabled" ]} ] in
  exists r h',
    makeRoute (V := knative) ci "foo.default.example.com"
      (external ["foo.default.example.com"; "foo.default.svc.cluster.local"]) h
    = ((Some r, None), h')
    /\ InsecureEdgeTerminationPolicy <$> RouteTLS (RouteSpec_ r)
       = Some InsecureEdgeTerminationPolicyAllow.
Proof.
  intros ci h.
  refine (proj1 (legacy_http_option_annotation (V := knative) knative_keys ci
                   "foo.default.example.com"
                   (external ["foo.default.example.com"; "foo.default.svc.cluster.local"])
                   h _ _ _ _ _) _).
  - vm_compute. discriminate.
  - discriminate.
  - vm_compute; exact eq_refl.
  - vm_compute. discriminate.
  - vm_compute. discriminate.
  - vm_compute; exact eq_refl.
Defined.

Lemma MakeRoutes_disabled_witness :
  let ci := ingress (Some 0%nat) [] [external ["foo.default.example.com"]] "" (statusOf []) in
  let h := [ {[ DisableRouteAnnotation := "" ]} ] in
  MakeRoutes (V := knative) ci h = ((Some [], None), h).
Proof.
  intros ci h. apply (MakeRoutes_disabled (V := knative) ci h).
  exists "". vm_compute; exact eq_refl.
Defined.

Lemma resolveIngress_self_heals_witness :
  let spec := {| Serving.IngressBlock := None; Serving.Config := ∅ |} in
  exists resolved,
    Serving.IngressBlock
      (Serving.resolveIngress "network" "ingress.class" "istio.ingress.networking.knative.dev"
         "observability" "metrics.backend-destination" spec) = Some resolved
    /\ Serving.Kourier resolved
       = {| Serving.Enabled := true; Serving.Exposure := Some Serving.ClusterIP |}
    /\ Serving.Enabled (Serving.Istio resolved) = false
    /\ Serving.Enabled (Serving.Contour resolved) = false
    /\ Serving.enabledNames resolved = [Serving.KourierBackend]
    /\ Serving.Config
         (Serving.resolveIngress "network" "ingress.class"
            "istio.ingress.networking.knative.dev"
            "observability" "metrics.backend-destination" spec) = Serving.Config spec.
Proof.
  intros spec.
  apply (ServingProofs.resolveIngress_self_heals "network" "ingress.class"
           "istio.ingress.networking.knative.dev" "observability"
           "metrics.backend-destination" spec).
  left. reflexivity.
Defined.

(** The expectations of the reconciler tests on the ingress block and on
    the monitoring toggle. *)
Example ingress_test_cases :
  let resolve := Serving.resolveIngress "network" "ingress.class"
                   "istio.ingress.networking.knative.dev" "observability"
                   "metrics.backend-destination" in
  let block k i c := {| Serving.IngressBlock :=
                          Some {| Serving.Kourier := k; Serving.Istio := i;
                                  Serving.Contour := c |};
                        Serving.Config := ∅ |} in
  let on e := {| Serving.Enabled := true; Serving.Exposure := e |} in
  let off e := {| Serving.Enabled := false; Serving.Exposure := e |} in
  Serving.IngressBlock (resolve (block (on None) (off None) (off None)))
    = Serving.IngressBlock (block (on (Some Serving.ClusterIP)) (off None) (off None))
  /\ Serving.IngressBlock (resolve (block (on (Some Serving.LoadBalancer)) (off None) (off None)))
    = Serving.IngressBlock (block (on (Some Serving.LoadBalancer)) (off None) (off None))
  /\ Serving.IngressBlock (resolve (block (off None) (off None) (off None)))
    = Serving.IngressBlock (block (on (Some Serving.ClusterIP)) (off None) (off None))
  /\ Serving.IngressBlock (resolve (block (off (Some Serving.ClusterIP)) (off None) (off None)))
    = Serving.IngressBlock (block (on (Some Serving.ClusterIP)) (off None) (off None))
  /\ Serving.backend "observability" "metrics.backend-destination"
       (resolve (block (off None) (on None) (off None))) = Some "none".
Proof. run_all. Qed.

End Checks.
